(** * translate.py: the string translation pipeline of dijkstra_bot

    A shallow embedding of [src/translate/translate.py] and of the Python
    library calls it is built from ([re.sub], [os.path.dirname],
    [os.path.join], [dict], [yaml.load], [yaml.dump]), followed by the
    properties of the pipeline.

    Text is a [string]: a Python [str] in its UTF-8 encoding.  The characters
    the program inspects (the marker "@", the braces, "/" and ".") are single
    bytes that never occur inside a multi-byte sequence, and byte-wise
    comparison of UTF-8 orders strings as Python orders them by code point. *)

From Stdlib Require Import Ascii.
From stdpp Require Import gmap strings list sorting.
From Equations Require Import Equations.
From Equations.Prop Require Import Logic.

(** ** Python string primitives *)

Module Str.

(** [c * n] for a one-character string [c]. *)
Fixpoint repeat (c : ascii) (n : nat) : string :=
  match n with
  | O => ""
  | S n' => String c (repeat c n')
  end.

(** [c in s] for a one-character string [c]. *)
Fixpoint contains (c : ascii) (s : string) : bool :=
  match s with
  | "" => false
  | String a r => Ascii.eqb a c || contains c r
  end.

(** [s.startswith(c)] *)
Definition startswith (c : ascii) (s : string) : bool :=
  match s with
  | "" => false
  | String a _ => Ascii.eqb a c
  end.

(** [s.endswith(c)] *)
Fixpoint endswith (c : ascii) (s : string) : bool :=
  match s with
  | "" => false
  | String a "" => Ascii.eqb a c
  | String _ r => endswith c r
  end.

(** [s.rfind(c)]: the index of the last occurrence of [c], or [-1].
    [rfind_from] scans left to right; [i] is the index of the head of
    [s] and [last] the last occurrence seen so far. *)
Fixpoint rfind_from (c : ascii) (s : string) (i last : Z) : Z :=
  match s with
  | "" => last
  | String a r => rfind_from c r (i + 1) (if Ascii.eqb a c then i else last)
  end.

Definition rfind (c : ascii) (s : string) : Z := rfind_from c s 0 (-1).

(** [s[:i]] and [s[i:]] for [0 <= i]. *)
Definition slice_to (i : Z) (s : string) : string :=
  String.substring 0 (Z.to_nat i) s.

Definition slice_from (i : Z) (s : string) : string :=
  String.substring (Z.to_nat i) (String.length s - Z.to_nat i) s.

(** [s.rstrip(c)] *)
Fixpoint rstrip (c : ascii) (s : string) : string :=
  match s with
  | "" => ""
  | String a r =>
      match rstrip c r with
      | "" => if Ascii.eqb a c then "" else String a ""
      | r' => String a r'
      end
  end.

End Str.

(** ** [os.path] (posixpath) *)

Definition sep : ascii := "/"%char.

(** [posixpath.dirname]:
    [i = p.rfind(sep) + 1; head = p[:i];
     if head and head != sep*len(head): head = head.rstrip(sep)] *)
Definition os_path_dirname (p : string) : string :=
  let i := (Str.rfind sep p + 1)%Z in
  let head := Str.slice_to i p in
  if negb (String.eqb head "")
     && negb (String.eqb head (Str.repeat sep (String.length head)))
  then Str.rstrip sep head
  else head.

(** [posixpath.basename]: [i = p.rfind(sep) + 1; return p[i:]] *)
Definition os_path_basename (p : string) : string :=
  Str.slice_from (Str.rfind sep p + 1)%Z p.

(** [posixpath.join(a, b)] with one component [b]:
    [if b.startswith(sep): path = b
     elif not path or path.endswith(sep): path += b
     else: path += sep + b] *)
Definition os_path_join (a b : string) : string :=
  if Str.startswith sep b then b
  else if String.eqb a "" || Str.endswith sep a then a +:+ b
  else a +:+ String sep b.

(** Lines 39-40: [out_path = os.path.dirname(source)] then
    [out_path = os.path.join(out_path, f'{lang}.yaml')]. *)
Definition out_path (source lang : string) : string :=
  let out_path := os_path_dirname source in
  os_path_join out_path (lang +:+ ".yaml").

(** ** The marker pattern, [MAGIC_WORD = re.compile(r'@@@*')] *)

Definition is_at (c : ascii) : bool := Ascii.eqb c "@"%char.

(** The greedy [@*]: drop every leading marker character. *)
Fixpoint skip_ats (s : string) : string :=
  match s with
  | "" => ""
  | String c r => if is_at c then skip_ats r else s
  end.

(** [MAGIC_WORD.match] at the head of [s]: two marker characters, then as
    many more as there are.  Returns what follows the match. *)
Definition MAGIC_WORD_match (s : string) : option string :=
  match s with
  | String c1 (String c2 r) =>
      if is_at c1 && is_at c2 then Some (skip_ats r) else None
  | _ => None
  end.

(** [MAGIC_WORD.sub('{}', s)]: scan [s] from the left; where the pattern
    matches, emit the replacement and go on after the match, otherwise copy
    one character.  The pattern never matches the empty string. *)
Equations? MAGIC_WORD_sub (s : string) : string by wf (String.length s) lt :=
  MAGIC_WORD_sub s with inspect (MAGIC_WORD_match s) := {
    | exist _ (Some rest) _ => "{}" +:+ MAGIC_WORD_sub rest;
    | exist _ None _ with s := {
        | "" => "";
        | String c r => String c (MAGIC_WORD_sub r) } }.
Proof.
  destruct s as [|c1 [|c2 r]]; simpl in *; try discriminate.
  destruct (is_at c1 && is_at c2); [|discriminate].
  assert (rest = skip_ats r) as -> by congruence.
  assert (∀ t, String.length (skip_ats t) ≤ String.length t) as Hskip.
  { induction t as [|c t IH]; simpl; [lia|]. destruct (is_at c); simpl; lia. }
  specialize (Hskip r). lia.
Qed.

(** [MAGIC_WORD.search(s) is not None]: the pattern matches somewhere. *)
Fixpoint MAGIC_WORD_search (s : string) : bool :=
  match s with
  | "" => false
  | String _ r => bool_decide (is_Some (MAGIC_WORD_match s)) || MAGIC_WORD_search r
  end.

(** ** Python dictionaries

    A [dict] keeps its entries in insertion order and holds a key once. *)

Abbreviation dict := (list (string * string)).

(** [d.get(k)] *)
Fixpoint dict_get (k : string) (d : dict) : option string :=
  match d with
  | [] => None
  | (k', v) :: r => if decide (k' = k) then Some v else dict_get k r
  end.

(** [k in d] *)
Definition dict_contains (k : string) (d : dict) : bool :=
  bool_decide (is_Some (dict_get k d)).

(** [d[k] = v]: a key that is present keeps its position, a new key goes
    to the end. *)
Fixpoint dict_setitem (k v : string) (d : dict) : dict :=
  match d with
  | [] => [(k, v)]
  | (k', v') :: r =>
      if decide (k' = k) then (k', v) :: r else (k', v') :: dict_setitem k v r
  end.

Definition dict_keys (d : dict) : list string := d.*1.

(** A key occurs once. *)
Definition dict_wf (d : dict) : Prop := NoDup (dict_keys d).

(** [for key, line in pairs: d[key] = line] *)
Definition dict_update (d : dict) (pairs : list (string * string)) : dict :=
  foldl (λ d kv, dict_setitem kv.1 kv.2 d) d pairs.

(** The values the program holds in [contents] and [out_yaml]: what
    [yaml.load] returns for an empty document and for a flat mapping of
    strings. *)
Inductive pyobj : Type :=
| PyNone
| PyDict (d : dict).

(** ** YAML documents

    A file holds a document: nothing at all (which loads as [None]), or a
    block mapping, given by its entries in the order of the lines of the
    file.  The emitter is a function of that sequence, so two files with
    equal documents are equal byte for byte.  Documents of other shapes
    (sequences, nested mappings, non-string scalars) are outside the
    model, as the program supports flat string mappings only. *)
Inductive yaml_doc : Type :=
| YNull
| YMap (entries : list (string * string)).

(** [yaml.load(f, Loader)]: the mapping constructor runs
    [mapping[key] = value] for each entry in turn. *)
Definition yaml_load (doc : yaml_doc) : pyobj :=
  match doc with
  | YNull => PyNone
  | YMap entries =>
      PyDict (dict_update [] entries)
  end.

(** Python's [<=] on pairs of strings: the first components decide unless
    they are equal. *)
Definition tuple_le : relation (string * string) :=
  λ p q, strict String.le p.1 q.1 ∨ (p.1 = q.1 ∧ String.le p.2 q.2).

Global Instance tuple_le_dec : RelDecision tuple_le.
Proof. intros p q. unfold tuple_le. apply _. Defined.

(** [sorted(mapping.items())] *)
Definition sorted (d : dict) : list (string * string) :=
  merge_sort tuple_le d.

(** [yaml.dump(data, f, allow_unicode=True, encoding='utf-8')]: [sort_keys]
    is left at its default [True], so the representer emits
    [sorted(mapping.items())]; [None] is emitted as the null document. *)
Definition yaml_dump (data : pyobj) : yaml_doc :=
  match data with
  | PyNone => YNull
  | PyDict d => YMap (sorted d)
  end.



(** ** The world the program runs in *)

Inductive exn : Type :=
| FileNotFoundError
| AttributeError
| TypeError
| BackendError.

(** The files by path (two different path strings are two files), the
    state of the translation service, the requests [(text, dest)] sent to it
    so far, and what was printed.  A write always succeeds. *)
Record world (B : Type) : Type := World {
  files : gmap string yaml_doc;
  backend_state : B;
  calls : list (string * string);
  stdout : list string;
}.
Arguments World {B}.
Arguments files {B}.
Arguments backend_state {B}.
Arguments calls {B}.
Arguments stdout {B}.

(** A statement either completes with a value or raises; both leave a
    world behind. *)
Inductive outcome (B A : Type) : Type :=
| Return (a : A) (w : world B)
| Raise (e : exn) (w : world B).
Arguments Return {B A}.
Arguments Raise {B A}.

Definition M (B A : Type) : Type := world B → outcome B A.

Definition ret {B A} (a : A) : M B A := λ w, Return a w.

Definition bind {B A C} (m : M B A) (f : A → M B C) : M B C :=
  λ w, match m w with
       | Return a w' => f a w'
       | Raise e w' => Raise e w'
       end.

Definition raise {B A} (e : exn) : M B A := λ w, Raise e w.

Notation "x <- m ;; k" := (bind m (λ x, k))
  (at level 100, m at next level, right associativity).
Notation "m ;;; k" := (bind m (λ _, k))
  (at level 100, right associativity).

(** [for x in l: body(x)] *)
Fixpoint for_each {B A} (l : list A) (body : A → M B unit) : M B unit :=
  match l with
  | [] => ret tt
  | x :: r => body x ;;; for_each r body
  end.

(** [os.path.exists(p)] *)
Definition os_path_exists {B} (p : string) : M B bool :=
  λ w, Return (bool_decide (is_Some (files w !! p))) w.

(** [with open(p, 'r') as f: yaml.load(f, Loader)] *)
Definition open_load {B} (p : string) : M B pyobj :=
  λ w, match files w !! p with
       | Some doc => Return (yaml_load doc) w
       | None => Raise FileNotFoundError w
       end.

(** [with open(p, 'w') as f: yaml.dump(data, f, ...)] *)
Definition open_dump {B} (p : string) (data : pyobj) : M B unit :=
  λ w, Return tt (World (<[p := yaml_dump data]> (files w))
                        (backend_state w) (calls w) (stdout w)).

(** [print(s)] *)
Definition print {B} (s : string) : M B unit :=
  λ w, Return tt (World (files w) (backend_state w) (calls w) (stdout w ++ [s])).

(** [key in out_yaml] *)
Definition py_in {B} (key : string) (o : pyobj) : M B bool :=
  match o with
  | PyNone => raise TypeError
  | PyDict d => ret (dict_contains key d)
  end.

(** [out_yaml[key] = line] *)
Definition py_setitem {B} (key line : string) (o : pyobj) : M B pyobj :=
  match o with
  | PyNone => raise TypeError
  | PyDict d => ret (PyDict (dict_setitem key line d))
  end.

(** [contents.items()] *)
Definition py_items {B} (o : pyobj) : M B (list (string * string)) :=
  match o with
  | PyNone => raise AttributeError
  | PyDict d => ret d
  end.

(** What passes between the program and the translation service while one
    language is processed: the answers received, the requests sent, the
    state the service is left in, and whether the last request failed. *)
Record exchange (B : Type) : Type := Exchange {
  answers : list string;
  sent : list string;
  final : B;
  failed : bool;
}.
Arguments Exchange {B}.
Arguments answers {B}.
Arguments sent {B}.
Arguments final {B}.
Arguments failed {B}.

(** Lines 36 and 42-44: the target map a language starts from. *)
Definition existing_target {B} (source lang : string) (w : world B) : pyobj :=
  match files w !! out_path source lang with
  | Some doc => yaml_load doc
  | None => PyDict []
  end.

Definition entries_of (o : pyobj) : dict :=
  match o with
  | PyNone => []
  | PyDict d => d
  end.

(** The entries of the source map whose key the target map lacks, in the
    order of the source map. *)
Definition queue (existing contents : dict) : list (string * string) :=
  filter (λ kv, dict_contains kv.1 existing = false) contents.

(** The world an outcome leaves behind. *)
Definition outcome_world {B A} (o : outcome B A) : world B :=
  match o with
  | Return _ w => w
  | Raise _ w => w
  end.





(** ** The program *)

(** [class ValueToHashtag]: the target language and the translations
    recorded so far.  Its translator [self.t] is the service of the world. *)
Record ValueToHashtag : Type := {
  lang : string;
  lines : list string;
}.

Section Pipeline.

(** The translation service, a black box that answers a request
    [(text, dest)] with a text or fails, and may change state. *)
Context {B : Type} (backend : B → string → string → option string * B).

(** [self.t.translate(value, self.lang)] followed by [.text] *)
Definition Translator_translate (value dest : string) : M B string :=
  λ w, let (answer, b) := backend (backend_state w) value dest in
       let w' := World (files w) b (calls w ++ [(value, dest)]) (stdout w) in
       match answer with
       | Some text => Return text w'
       | None => Raise BackendError w'
       end.

(** The requests [texts] put to the service one after the other, up to
    the first that fails. *)
Fixpoint run_batch (dest : string) (texts : list string) (b : B)
  : exchange B :=
  match texts with
  | [] => Exchange [] [] b false
  | text :: rest =>
      match backend b text dest with
      | (Some answer, b') =>
          let r := run_batch dest rest b' in
          Exchange (answer :: answers r) (text :: sent r) (final r) (failed r)
      | (None, b') => Exchange [] [text] b' true
      end
  end.

(** [ValueToHashtag(lang)] *)
Definition ValueToHashtag_init (lang : string) : ValueToHashtag :=
  {| lang := lang; lines := [] |}.

(** [ValueToHashtag.value_to_hashtag]; the object is returned with its
    [lines] extended. *)
Definition value_to_hashtag (self : ValueToHashtag) (value : string)
  : M B (string * ValueToHashtag) :=
  let value := MAGIC_WORD_sub value in
  text <- Translator_translate value (lang self) ;;
  ret (text, {| lang := lang self; lines := lines self ++ [text] |}).

(** [ValueToHashtag.get_lines], the generator read to its end. *)
Definition get_lines (self : ValueToHashtag) : list string :=
  MAGIC_WORD_sub <$> lines self.

(** Lines 46-51, the loop over [contents.items()]; its state is
    [translated_keys] and the [hashtag] object. *)
Fixpoint for_items (out_yaml : pyobj) (items : list (string * string))
    (translated_keys : list string) (hashtag : ValueToHashtag)
  : M B (list string * ValueToHashtag) :=
  match items with
  | [] => ret (translated_keys, hashtag)
  | (key, value) :: rest =>
      present <- py_in key out_yaml ;;
      if present : bool then for_items out_yaml rest translated_keys hashtag
      else
        r <- value_to_hashtag hashtag value ;;
        print r.1 ;;;
        for_items out_yaml rest (translated_keys ++ [key]) r.2
  end.

(** Lines 54-56, the loop over [zip(translated_keys, get_lines())]. *)
Fixpoint for_zip (pairs : list (string * string)) (out_yaml : pyobj)
  : M B pyobj :=
  match pairs with
  | [] => ret out_yaml
  | (key, line) :: rest =>
      out_yaml' <- py_setitem key line out_yaml ;;
      for_zip rest out_yaml'
  end.

(** Lines 36-58, the body of [for lang in langs]. *)
Definition translate_lang (source : string) (contents : pyobj)
    (lang : string) : M B unit :=
  let out_path := out_path source lang in
  there <- os_path_exists out_path ;;
  out_yaml <- (if there : bool then open_load out_path else ret (PyDict [])) ;;
  let hashtag := ValueToHashtag_init lang in
  items <- py_items contents ;;
  r <- for_items out_yaml items [] hashtag ;;
  print (lang +:+ " complete") ;;;
  out_yaml' <- for_zip (zip r.1 (get_lines r.2)) out_yaml ;;
  open_dump out_path out_yaml'.

(** [translate(source, langs)] *)
Definition translate (source : string) (langs : list string) : M B unit :=
  contents <- open_load source ;;
  for_each langs (translate_lang source contents).

End Pipeline.

(** ** Translation services and worlds to run the program on *)

(** A service that returns the text it is given. *)
Definition echo : unit → string → string → option string * unit :=
  λ b text _, (Some text, b).

(** A service that numbers its answers: the state counts the requests. *)
Definition counting : nat → string → string → option string * nat :=
  λ n text _, (Some (String (ascii_of_nat (65 + n)) (":" +:+ text)), S n).

(** A service that answers [budget] requests and then fails. *)
Definition limited : nat → string → string → option string * nat :=
  λ budget text _,
    match budget with
    | O => (None, O)
    | S n => (Some text, n)
    end.

Definition world0 {B} (b : B) (fs : list (string * yaml_doc)) : world B :=
  World (list_to_map fs) b [] [].

(** A source file and a French file that has one of its keys already. *)
Definition strings_yml : yaml_doc :=
  YMap [("greet", "hi @@@ there"); ("bye", "see you @ {}"); ("ask", "who?")].

Definition fr_yaml : yaml_doc :=
  YMap [("bye", "au revoir")].

Definition disk : list (string * yaml_doc) :=
  [("dir/strings.yml", strings_yml); ("dir/fr.yaml", fr_yaml)].

(** * Properties *)

(** ** Strings *)

Lemma str_app_cons c (s t : string) : String c s +:+ t = String c (s +:+ t).
Proof. reflexivity. Qed.

Lemma str_app_empty_l (s : string) : "" +:+ s = s.
Proof. reflexivity. Qed.

Lemma str_app_empty_r (s : string) : s +:+ "" = s.
Proof. induction s as [|c r IH]; [done|]. by rewrite str_app_cons, IH. Qed.

Lemma str_app_assoc (s t u : string) : (s +:+ t) +:+ u = s +:+ (t +:+ u).
Proof. induction s as [|c r IH]; [done|]. by rewrite !str_app_cons, IH. Qed.

Lemma str_length_app (s t : string) :
  String.length (s +:+ t) = String.length s + String.length t.
Proof. induction s as [|c r IH]; [done|]. rewrite str_app_cons. simpl. lia. Qed.

Lemma is_at_true c : is_at c = true ↔ c = "@"%char.
Proof. unfold is_at. apply Ascii.eqb_eq. Qed.

Lemma endswith_cons c a b r :
  Str.endswith c (String a (String b r)) = Str.endswith c (String b r).
Proof. reflexivity. Qed.

Lemma endswith_app c s a r :
  Str.endswith c (s +:+ String a r) = Str.endswith c (String a r).
Proof.
  induction s as [|b s IH]; [done|].
  rewrite str_app_cons. destruct s as [|b' s]; [done|].
  rewrite str_app_cons, endswith_cons. by rewrite <-str_app_cons.
Qed.

(** ** The marker substitution *)

Lemma skip_ats_length s : String.length (skip_ats s) ≤ String.length s.
Proof.
  induction s as [|c r IH]; simpl; [lia|].
  destruct (is_at c); simpl; lia.
Qed.

Lemma MAGIC_WORD_match_length s rest :
  MAGIC_WORD_match s = Some rest → String.length rest < String.length s.
Proof.
  destruct s as [|c1 [|c2 r]]; simpl; try discriminate.
  destruct (is_at c1 && is_at c2); [|discriminate].
  intros [= <-]. pose proof (skip_ats_length r). lia.
Qed.

Lemma MAGIC_WORD_sub_eq s :
  MAGIC_WORD_sub s =
  match MAGIC_WORD_match s with
  | Some rest => "{}" +:+ MAGIC_WORD_sub rest
  | None => match s with
            | "" => ""
            | String c r => String c (MAGIC_WORD_sub r)
            end
  end.
Proof.
  funelim (MAGIC_WORD_sub s).
  - by rewrite e.
  - done.
  - by rewrite e.
Qed.

Lemma string_length_ind (P : string → Prop) :
  (∀ s, (∀ t, String.length t < String.length s → P t) → P s) → ∀ s, P s.
Proof.
  intros step s. remember (String.length s) as n eqn:Hn.
  revert s Hn. induction (lt_wf n) as [n _ IH]. intros s ->.
  apply step. intros t Ht. by apply (IH (String.length t)).
Qed.

Lemma sub_no_match s : MAGIC_WORD_search s = false → MAGIC_WORD_sub s = s.
Proof.
  induction s as [|c r IH]; intros Hs; rewrite MAGIC_WORD_sub_eq; [done|].
  cbn [MAGIC_WORD_search] in Hs. apply orb_false_iff in Hs as [Hm Hr].
  destruct (MAGIC_WORD_match (String c r)) as [rest|] eqn:E.
  - exfalso. apply bool_decide_eq_false in Hm. apply Hm. eauto.
  - by rewrite IH.
Qed.

Lemma match_head_not_at c r :
  is_at c = false → MAGIC_WORD_match (String c r) = None.
Proof. intros Hc. destruct r; simpl; [done|]. by rewrite Hc. Qed.

Lemma match_second_not_at c r :
  Str.startswith "@" r = false → MAGIC_WORD_match (String c r) = None.
Proof.
  destruct r as [|c2 r]; simpl; [done|]. fold (is_at c2). intros ->.
  by rewrite andb_false_r.
Qed.

Lemma match_Some_inv s rest :
  MAGIC_WORD_match s = Some rest →
  ∃ r, s = String "@" (String "@" r) ∧ rest = skip_ats r.
Proof.
  destruct s as [|c1 [|c2 r]]; simpl; try done.
  destruct (is_at c1) eqn:E1, (is_at c2) eqn:E2; simpl; try done.
  apply is_at_true in E1, E2. subst. intros [= <-]. eauto.
Qed.

Lemma match_None_head c r :
  MAGIC_WORD_match (String c r) = None →
  is_at c = false ∨ Str.startswith "@" r = false.
Proof.
  destruct r as [|c2 r]; simpl; [by right|]. fold (is_at c2).
  destruct (is_at c), (is_at c2); simpl; auto. done.
Qed.

Lemma skip_ats_head s : Str.startswith "@" (skip_ats s) = false.
Proof.
  induction s as [|c r IH]; [done|]. simpl.
  destruct (is_at c) eqn:E; [done|]. simpl. exact E.
Qed.

Lemma sub_head_not_at s :
  Str.startswith "@" s = false → Str.startswith "@" (MAGIC_WORD_sub s) = false.
Proof.
  destruct s as [|c r]; intros Hs; rewrite MAGIC_WORD_sub_eq; [done|].
  simpl in Hs. fold (is_at c) in Hs.
  by rewrite (match_head_not_at _ _ Hs).
Qed.

Lemma search_sub s : MAGIC_WORD_search (MAGIC_WORD_sub s) = false.
Proof.
  induction s as [s IH] using string_length_ind.
  rewrite MAGIC_WORD_sub_eq.
  destruct (MAGIC_WORD_match s) as [rest|] eqn:E.
  - specialize (IH rest (MAGIC_WORD_match_length _ _ E)).
    change ("{}" +:+ MAGIC_WORD_sub rest)
      with (String "{" (String "}" (MAGIC_WORD_sub rest))).
    cbn [MAGIC_WORD_search]. rewrite IH.
    rewrite (match_head_not_at "{"), (match_head_not_at "}") by done.
    done.
  - destruct s as [|c r]; [done|].
    cbn [MAGIC_WORD_search]. rewrite IH by (simpl; lia).
    apply match_None_head in E as [Hc|Hr].
    + by rewrite match_head_not_at.
    + by rewrite match_second_not_at by by apply sub_head_not_at.
Qed.
Lemma sub_sub s : MAGIC_WORD_sub (MAGIC_WORD_sub s) = MAGIC_WORD_sub s.
Proof. apply sub_no_match, search_sub. Qed.

Lemma skip_ats_app_eq s t :
  Str.endswith "@" s = false → s ≠ "" → skip_ats (s +:+ t) = skip_ats s +:+ t.
Proof.
  induction s as [|c s IH]; [done|]. intros He _.
  rewrite str_app_cons. simpl. destruct (is_at c) eqn:Ec; [|done].
  destruct s as [|c' s].
  - simpl in He. unfold is_at in Ec. congruence.
  - apply IH; [|done]. by rewrite endswith_cons in He.
Qed.

Lemma skip_ats_endswith s :
  Str.endswith "@" s = false → Str.endswith "@" (skip_ats s) = false.
Proof.
  induction s as [|c s IH]; [done|]. intros He. simpl.
  destruct (is_at c) eqn:Ec; [|done].
  destruct s as [|c' s]; [done|]. apply IH. by rewrite endswith_cons in He.
Qed.

Lemma sub_empty : MAGIC_WORD_sub "" = "".
Proof. by rewrite MAGIC_WORD_sub_eq. Qed.

(** A match that starts in [s] ends in [s] when [s] does not end with a
    marker character, so the substitution distributes over the append. *)
Lemma sub_app s t :
  Str.endswith "@" s = false →
  MAGIC_WORD_sub (s +:+ t) = MAGIC_WORD_sub s +:+ MAGIC_WORD_sub t.
Proof.
  induction s as [s IH] using string_length_ind. intros He.
  destruct s as [|c r]; [by rewrite sub_empty|].
  rewrite (MAGIC_WORD_sub_eq (String c r)).
  destruct (MAGIC_WORD_match (String c r)) as [rest|] eqn:E.
  - pose proof (MAGIC_WORD_match_length _ _ E) as Hlen.
    apply match_Some_inv in E as (r' & [= -> ->] & ->).
    destruct r' as [|c' r'']; [done|]. rewrite !endswith_cons in He.
    rewrite (MAGIC_WORD_sub_eq (_ +:+ t)). rewrite !str_app_cons.
    cbn [MAGIC_WORD_match]. simpl is_at. cbn [andb].
    rewrite <-str_app_cons, skip_ats_app_eq by done.
    rewrite IH; [by rewrite str_app_assoc|done|by apply skip_ats_endswith].
  - rewrite str_app_cons, (MAGIC_WORD_sub_eq (String c _)).
    assert (MAGIC_WORD_match (String c (r +:+ t)) = None) as ->.
    { destruct (is_at c) eqn:Ec; [|by apply match_head_not_at].
      apply match_None_head in E as [Hc|Hr]; [congruence|].
      apply match_second_not_at. destruct r as [|c2 r]; [|done].
      simpl in He. unfold is_at in Ec. congruence. }
    rewrite str_app_cons. f_equal. destruct r as [|c2 r].
    + by rewrite sub_empty.
    + apply IH; [simpl; lia|]. by rewrite endswith_cons in He.
Qed.

(** ** Paths *)

Lemma contains_app c s t :
  Str.contains c (s +:+ t) = Str.contains c s || Str.contains c t.
Proof.
  induction s as [|a s IH]; [done|].
  rewrite str_app_cons. simpl. by rewrite IH, orb_assoc.
Qed.

Lemma startswith_contains c s :
  Str.contains c s = false → Str.startswith c s = false.
Proof. destruct s; simpl; [done|]. by intros [? _]%orb_false_iff. Qed.

Lemma rfind_from_none c s i last :
  Str.contains c s = false → Str.rfind_from c s i last = last.
Proof.
  revert i last. induction s as [|a s IH]; intros i last; simpl; [done|].
  intros [-> Hs]%orb_false_iff. by apply IH.
Qed.

Lemma rfind_from_app c s t i last :
  Str.rfind_from c (s +:+ t) i last =
  Str.rfind_from c t (i + Z.of_nat (String.length s)) (Str.rfind_from c s i last).
Proof.
  revert i last. induction s as [|a s IH]; intros i last.
  - rewrite str_app_empty_l. simpl. f_equal. lia.
  - rewrite str_app_cons. simpl. rewrite IH. f_equal. lia.
Qed.

Lemma rfind_from_endswith c s i last :
  Str.endswith c s = true →
  Str.rfind_from c s i last = (i + Z.of_nat (String.length s) - 1)%Z.
Proof.
  revert i last. induction s as [|a s IH]; intros i last; [done|].
  destruct s as [|b s].
  - simpl. intros ->. lia.
  - rewrite endswith_cons. intros Hs. cbn [Str.rfind_from].
    cbn [Str.rfind_from] in IH. rewrite IH by done.
    cbn [String.length]. lia.
Qed.

(** The last separator of [pre +:+ f] is the last character of [pre]. *)
Lemma rfind_prefix pre f :
  pre = "" ∨ Str.endswith sep pre = true →
  Str.contains sep f = false →
  (Str.rfind sep (pre +:+ f) + 1)%Z = Z.of_nat (String.length pre).
Proof.
  intros Hpre Hf. unfold Str.rfind.
  rewrite rfind_from_app, rfind_from_none by done.
  destruct Hpre as [->|Hpre]; [done|].
  rewrite rfind_from_endswith by done. lia.
Qed.

Lemma substring_0_0 s : String.substring 0 0 s = "".
Proof. by destruct s. Qed.

Lemma substring_prefix s t :
  String.substring 0 (String.length s) (s +:+ t) = s.
Proof.
  induction s as [|a s IH]; [apply substring_0_0|].
  rewrite str_app_cons. simpl. by rewrite IH.
Qed.

Lemma substring_all s : String.substring 0 (String.length s) s = s.
Proof. induction s as [|a s IH]; [done|]. simpl. by rewrite IH. Qed.

Lemma substring_suffix s t :
  String.substring (String.length s) (String.length t) (s +:+ t) = t.
Proof.
  induction s as [|a s IH]; [apply substring_all|].
  rewrite str_app_cons. simpl. by rewrite IH.
Qed.

Lemma rstrip_endswith c s : Str.endswith c (Str.rstrip c s) = false.
Proof.
  induction s as [|a s IH]; [done|]. simpl.
  destruct (Str.rstrip c s) as [|b r] eqn:E.
  - destruct (Ascii.eqb a c) eqn:Ea; [done|]. simpl. exact Ea.
  - by rewrite endswith_cons.
Qed.

Lemma rstrip_empty c s :
  Str.rstrip c s = "" → s = Str.repeat c (String.length s).
Proof.
  induction s as [|a s IH]; [done|]. simpl.
  destruct (Str.rstrip c s) as [|b r] eqn:E; [|done].
  destruct (Ascii.eqb a c) eqn:Ea; [|done]. intros _.
  apply Ascii.eqb_eq in Ea as ->. by rewrite <-IH.
Qed.

Lemma rstrip_id c s : Str.endswith c s = false → Str.rstrip c s = s.
Proof.
  induction s as [|a s IH]; [done|]. destruct s as [|b s].
  - simpl. by intros ->.
  - rewrite endswith_cons. intros Hs. specialize (IH Hs).
    cbn [Str.rstrip]. cbn [Str.rstrip] in IH. by rewrite IH.
Qed.

Lemma rstrip_snoc c s :
  s ≠ "" → Str.endswith c s = false → Str.rstrip c (s +:+ String c "") = s.
Proof.
  induction s as [|a s IH]; [done|]. intros _ Hs.
  rewrite str_app_cons. cbn [Str.rstrip]. destruct s as [|b s].
  - rewrite str_app_empty_l. simpl. rewrite Ascii.eqb_refl.
    simpl in Hs. by rewrite Hs.
  - rewrite endswith_cons in Hs. by rewrite IH.
Qed.

Lemma repeat_endswith c n : Str.endswith c (Str.repeat c (S n)) = true.
Proof.
  induction n as [|n IH]; simpl; [apply Ascii.eqb_refl|]. exact IH.
Qed.

Lemma repeat_snoc_inv c s :
  s +:+ String c "" = Str.repeat c (String.length (s +:+ String c "")) →
  s = Str.repeat c (String.length s).
Proof.
  induction s as [|a s IH]; [done|].
  rewrite str_app_cons. simpl. intros [= <- H]. f_equal. by apply IH.
Qed.

(** The directory [os.path.dirname] returns is empty, or made of separators
    only, or does not end with a separator. *)
Lemma os_path_dirname_shape p :
  let d := os_path_dirname p in
  d = "" ∨ (d ≠ "" ∧ d = Str.repeat sep (String.length d))
  ∨ (d ≠ "" ∧ Str.endswith sep d = false).
Proof.
  unfold os_path_dirname. cbv zeta.
  set (head := Str.slice_to _ p).
  destruct (String.eqb_spec head "") as [->|Hne]; [by left|]. simpl.
  destruct (String.eqb_spec head (Str.repeat sep (String.length head)))
    as [Hrep|Hrep]; simpl.
  - right. left. done.
  - right. right. split; [|apply rstrip_endswith].
    intros Hr. by apply rstrip_empty in Hr.
Qed.

(** [os.path.join(d, f)] puts [f] behind a prefix made from [d]. *)
Lemma os_path_join_dirname d f :
  d = "" ∨ (d ≠ "" ∧ d = Str.repeat sep (String.length d))
  ∨ (d ≠ "" ∧ Str.endswith sep d = false) →
  Str.contains sep f = false →
  os_path_dirname (os_path_join d f) = d ∧
  os_path_basename (os_path_join d f) = f.
Proof.
  intros Hd Hf. unfold os_path_join.
  rewrite (startswith_contains _ _ Hf).
  assert (∀ pre, pre = "" ∨ Str.endswith sep pre = true →
    Str.slice_to (Str.rfind sep (pre +:+ f) + 1) (pre +:+ f) = pre ∧
    os_path_basename (pre +:+ f) = f) as Hsplit.
  { intros pre Hpre. unfold os_path_basename, Str.slice_to, Str.slice_from.
    rewrite rfind_prefix, Nat2Z.id by done. split; [apply substring_prefix|].
    rewrite str_length_app.
    replace (String.length pre + String.length f - String.length pre)
      with (String.length f) by lia.
    apply substring_suffix. }
  destruct Hd as [->|[[Hne Hrep]|[Hne Hend]]].
  - simpl. destruct (Hsplit "") as [H1 H2]; [by left|].
    rewrite str_app_empty_l in *. split; [|done].
    unfold os_path_dirname. cbv zeta. by rewrite H1.
  - assert (Str.endswith sep d = true) as Hend.
    { rewrite Hrep. destruct (String.length d) eqn:El; [by destruct d|].
      apply repeat_endswith. }
    rewrite Hend, orb_true_r.
    destruct (Hsplit d) as [H1 H2]; [by right|]. split; [|done].
    unfold os_path_dirname. cbv zeta. rewrite H1.
    destruct (String.eqb_spec d (Str.repeat sep (String.length d))); [|done].
    by rewrite andb_false_r.
  - rewrite Hend, orb_false_r.
    destruct (String.eqb_spec d "") as [|_]; [done|].
    change (d +:+ String sep f) with (d +:+ (String sep "" +:+ f)).
    rewrite <-str_app_assoc.
    destruct (Hsplit (d +:+ String sep "")) as [H1 H2].
    { right. by rewrite endswith_app. }
    split; [|done]. unfold os_path_dirname. cbv zeta. rewrite H1.
    destruct (String.eqb_spec (d +:+ String sep "") "") as [He|_].
    { by destruct d. }
    destruct (String.eqb_spec (d +:+ String sep "")
      (Str.repeat sep (String.length (d +:+ String sep "")))) as [He|_].
    { apply repeat_snoc_inv in He. exfalso.
      destruct (String.length d) eqn:El; [by destruct d|].
      rewrite He, repeat_endswith in Hend. done. }
    simpl. by apply rstrip_snoc.
Qed.

(** ** Dictionaries and documents *)

Global Instance tuple_le_trans : Transitive tuple_le.
Proof.
  intros [k1 v1] [k2 v2] [k3 v3]. unfold tuple_le. simpl.
  intros [H12|[-> H12]] [H23|[-> H23]].
  - left. by etrans.
  - by left.
  - by left.
  - right. split; [done|]. by etrans.
Qed.

Global Instance tuple_le_antisymm : AntiSymm (=) tuple_le.
Proof.
  intros [k1 v1] [k2 v2]. unfold tuple_le. simpl.
  intros [H12|[-> H12]] [H21|[E H21]].
  - destruct H12 as [_ []]. by apply H21.
  - apply strict_ne in H12. done.
  - apply strict_ne in H21. done.
  - f_equal. by apply (anti_symm String.le).
Qed.

Global Instance tuple_le_total : Total tuple_le.
Proof.
  intros [k1 v1] [k2 v2]. unfold tuple_le. simpl.
  destruct (decide (k1 = k2)) as [->|Hne].
  - destruct (total String.le v1 v2); [left|right]; by right.
  - destruct (total String.le k1 k2) as [H|H]; [left|right]; left.
    + apply strict_spec_alt; split; [done|congruence].
    + apply strict_spec_alt; split; [done|congruence].
Qed.












Lemma dict_setitem_absent k v (d : dict) :
  k ∉ dict_keys d → dict_setitem k v d = d ++ [(k, v)].
Proof.
  unfold dict_keys. induction d as [|[k' v'] d IH]; simpl; [done|].
  intros [Hne Hd]%not_elem_of_cons. rewrite decide_False by done.
  by rewrite IH.
Qed.

Lemma dict_keys_setitem_present k v (d : dict) :
  k ∈ dict_keys d → dict_keys (dict_setitem k v d) = dict_keys d.
Proof.
  unfold dict_keys. induction d as [|[k' v'] d IH]; csimpl.
  - intros []%elem_of_nil.
  - case_decide; [done|]. intros [?|Hd]%elem_of_cons; [done|].
    csimpl. by rewrite IH.
Qed.


Lemma dict_wf_setitem k v (d : dict) : dict_wf d → dict_wf (dict_setitem k v d).
Proof.
  intros Hwf. destruct (decide (k ∈ dict_keys d)) as [Hin|Hin].
  - unfold dict_wf. by rewrite dict_keys_setitem_present.
  - rewrite dict_setitem_absent by done. unfold dict_wf, dict_keys.
    rewrite fmap_app. simpl. apply NoDup_app. split; [done|].
    split; [|apply NoDup_singleton].
    intros x Hx ->%list_elem_of_singleton. done.
Qed.

Lemma dict_wf_update d pairs : dict_wf d → dict_wf (dict_update d pairs).
Proof.
  revert d. induction pairs as [|[k v] pairs IH]; intros d Hd; [done|].
  simpl. apply IH. by apply dict_wf_setitem.
Qed.



Lemma yaml_load_wf doc d : yaml_load doc = PyDict d → dict_wf d.
Proof.
  destruct doc as [|entries]; [done|]. intros [= <-].
  apply (dict_wf_update [] entries). apply NoDup_nil_2.
Qed.






(** ** The loops of the program *)

Lemma queue_cons ex kv c :
  queue ex (kv :: c) =
  if dict_contains kv.1 ex then queue ex c else kv :: queue ex c.
Proof.
  unfold queue. rewrite filter_cons.
  destruct (dict_contains kv.1 ex); by simplify_option_eq.
Qed.

Section PipelineFacts.

Context {B : Type} (backend : B → string → string → option string * B).

Lemma world_eta (w : world B) :
  World (files w) (backend_state w) (calls w ++ []) (stdout w ++ []) = w.
Proof. destruct w. simpl. by rewrite !app_nil_r. Qed.

(** The loop over the source map sends the queue to the service, in
    order, and records the answers; it stops where the service fails. *)
Lemma for_items_PyDict ex items tks h (w : world B) :
  for_items backend (PyDict ex) items tks h w =
  let q := queue ex items in
  let r := run_batch backend (lang h) (MAGIC_WORD_sub <$> q.*2)
             (backend_state w) in
  let w' := World (files w) (final r)
              (calls w ++ ((λ t, (t, lang h)) <$> sent r))
              (stdout w ++ answers r) in
  if failed r then Raise BackendError w'
  else Return (tks ++ q.*1, {| lang := lang h; lines := lines h ++ answers r |}) w'.
Proof.
  revert tks h w. induction items as [|[key value] items IH]; intros tks h w.
  - simpl. unfold ret. rewrite world_eta, !app_nil_r. by destruct h.
  - cbn [for_items]. unfold bind at 1. simpl py_in. unfold ret at 1.
    rewrite queue_cons. simpl fst.
    destruct (dict_contains key ex) eqn:Hin.
    + apply IH.
    + csimpl.
      unfold bind at 1. unfold value_to_hashtag, bind at 1.
      unfold Translator_translate.
      destruct (backend (backend_state w) (MAGIC_WORD_sub value) (lang h))
        as [[answer|] b'] eqn:Hb; simpl.
      * unfold bind, print. simpl. rewrite IH. simpl.
        destruct (failed _); simpl; rewrite <-!(assoc_L (++)); done.
      * by rewrite app_nil_r.
Qed.

Lemma for_items_PyNone key value items tks h (w : world B) :
  for_items backend PyNone ((key, value) :: items) tks h w = Raise TypeError w.
Proof. done. Qed.

Lemma for_zip_PyDict pairs d (w : world B) :
  for_zip pairs (PyDict d) w = Return (PyDict (dict_update d pairs)) w.
Proof.
  revert d. induction pairs as [|[key line] pairs IH]; intros d; [done|].
  cbn [for_zip]. unfold bind. simpl. apply IH.
Qed.

Lemma run_batch_lengths dest texts b :
  let r := run_batch backend dest texts b in
  failed r = false →
  length (answers r) = length texts ∧ sent r = texts.
Proof.
  revert b. induction texts as [|t texts IH]; intros b; simpl; [done|].
  destruct (backend b t dest) as [[a|] b']; simpl; [|done].
  intros Hf. destruct (IH b' Hf) as [-> ->]. done.
Qed.

(** One language, when the target map is a dictionary. *)
Lemma translate_lang_PyDict source c lang ex (w : world B) :
  existing_target source lang w = PyDict ex →
  translate_lang backend source (PyDict c) lang w =
  let q := queue ex c in
  let r := run_batch backend lang (MAGIC_WORD_sub <$> q.*2) (backend_state w) in
  if failed r then
    Raise BackendError
      (World (files w) (final r)
         (calls w ++ ((λ t, (t, lang)) <$> sent r)) (stdout w ++ answers r))
  else
    Return tt
      (World (<[out_path source lang :=
                 yaml_dump (PyDict (dict_update ex
                   (zip q.*1 (MAGIC_WORD_sub <$> answers r))))]> (files w))
         (final r)
         (calls w ++ ((λ t, (t, lang)) <$> sent r))
         (stdout w ++ answers r ++ [lang +:+ " complete"])).
Proof.
  intros Hex. unfold translate_lang, existing_target in *.
  unfold bind at 1. unfold os_path_exists.
  unfold bind at 1.
  assert ((if bool_decide (is_Some (files w !! out_path source lang))
           then open_load (out_path source lang) else ret (PyDict [])) w
          = Return (PyDict ex) w) as ->.
  { unfold open_load, ret.
    destruct (files w !! out_path source lang) as [doc|] eqn:E.
    - rewrite bool_decide_eq_true_2 by eauto. by rewrite E, Hex.
    - rewrite bool_decide_eq_false_2 by (by intros [? ?]). by rewrite Hex. }
  unfold bind at 1. simpl py_items. unfold ret at 1.
  unfold bind at 1. rewrite for_items_PyDict. simpl.
  destruct (failed _) eqn:Hf; [done|].
  unfold bind at 1. unfold print at 1. simpl.
  unfold bind at 1. rewrite for_zip_PyDict. unfold open_dump. simpl.
  unfold get_lines. simpl. by rewrite <-(assoc_L (++)).
Qed.

(** One language, when the target file holds the null document. *)
Lemma translate_lang_PyNone source c lang (w : world B) :
  existing_target source lang w = PyNone →
  translate_lang backend source (PyDict c) lang w =
  match c with
  | [] => Return tt (World (<[out_path source lang := YNull]> (files w))
                       (backend_state w) (calls w)
                       (stdout w ++ [lang +:+ " complete"]))
  | _ :: _ => Raise TypeError w
  end.
Proof.
  intros Hex. unfold translate_lang, existing_target in *.
  unfold bind at 1. unfold os_path_exists. unfold bind at 1.
  assert ((if bool_decide (is_Some (files w !! out_path source lang))
           then open_load (out_path source lang) else ret (PyDict [])) w
          = Return PyNone w) as ->.
  { unfold open_load, ret.
    destruct (files w !! out_path source lang) as [doc|] eqn:E; [|done].
    rewrite bool_decide_eq_true_2 by eauto. by rewrite E, Hex. }
  unfold bind at 1. simpl py_items. unfold ret at 1.
  destruct c as [|[key value] c]; [done|].
  unfold bind at 1. by rewrite for_items_PyNone.
Qed.

Lemma translate_lang_no_contents source lang (w : world B) :
  translate_lang backend source PyNone lang w = Raise AttributeError w.
Proof.
  unfold translate_lang. unfold bind at 1. unfold os_path_exists.
  unfold bind at 1.
  unfold open_load, ret.
  destruct (files w !! out_path source lang) as [doc|] eqn:E.
  - rewrite bool_decide_eq_true_2 by eauto. simpl. by rewrite E.
  - by rewrite bool_decide_eq_false_2 by (by intros [? ?]).
Qed.

End PipelineFacts.

(** ** One language that completes *)









Section LanguageFacts.

Context {B : Type} (backend : B → string → string → option string * B).


Lemma existing_target_wf source lang (w : world B) ex :
  existing_target source lang w = PyDict ex → dict_wf ex.
Proof.
  unfold existing_target. destruct (files w !! _) as [doc|].
  - apply yaml_load_wf.
  - intros [= <-]. apply NoDup_nil_2.
Qed.

(** What a language that completes leaves behind. *)
Lemma translate_lang_Return source c lang (w w' : world B) :
  translate_lang backend source (PyDict c) lang w = Return tt w' →
  let ex := entries_of (existing_target source lang w) in
  let q := queue ex c in
  let r := run_batch backend lang (MAGIC_WORD_sub <$> q.*2) (backend_state w) in
  ∃ out_yaml,
    failed r = false ∧
    w' = World (<[out_path source lang := yaml_dump out_yaml]> (files w))
           (final r) (calls w ++ ((λ t, (t, lang)) <$> sent r))
           (stdout w ++ answers r ++ [lang +:+ " complete"]) ∧
    (∀ d, out_yaml = PyDict d → dict_wf d) ∧
    match out_yaml with
    | PyNone => c = [] ∧ existing_target source lang w = PyNone
    | PyDict d =>
        d = dict_update ex (zip q.*1 (MAGIC_WORD_sub <$> answers r)) ∧
        existing_target source lang w = PyDict ex
    end.
Proof.
  destruct (existing_target source lang w) as [|ex] eqn:Hex; simpl.
  - rewrite (translate_lang_PyNone _ _ _ _ _ Hex).
    destruct c as [|kv c]; [|done]. intros [= <-].
    exists PyNone. simpl. rewrite !app_nil_r. done.
  - rewrite (translate_lang_PyDict _ _ _ _ _ _ Hex). simpl.
    destruct (failed _) eqn:Hf; [done|]. intros [= <-].
    eexists (PyDict _). split; [done|]. split; [done|]. split; [|done].
    intros d [= <-]. apply dict_wf_update.
    by eapply existing_target_wf.
Qed.


End LanguageFacts.



(** A marker character on its own stays. *)
Lemma sub_single_marker a b :
  Str.endswith "@" a = false → Str.startswith "@" b = false →
  MAGIC_WORD_sub (a +:+ "@" +:+ b) =
  MAGIC_WORD_sub a +:+ "@" +:+ MAGIC_WORD_sub b.
Proof.
  intros Ha Hb. rewrite sub_app by done. f_equal.
  change ("@" +:+ b) with (String "@" b).
  rewrite MAGIC_WORD_sub_eq. by rewrite match_second_not_at.
Qed.


(** ** The claims about one language *)

Section Language.

Context {B : Type} (backend : B → string → string → option string * B).








(** A language that raises has written nothing. *)
Lemma translate_lang_Raise source contents lang e (w w' : world B) :
  translate_lang backend source contents lang w = Raise e w' →
  files w' = files w.
Proof.
  destruct contents as [|c].
  { rewrite translate_lang_no_contents. by intros [= _ <-]. }
  destruct (existing_target source lang w) as [|ex] eqn:Hex.
  - rewrite (translate_lang_PyNone _ _ _ _ _ Hex).
    destruct c; [done|]. by intros [= _ <-].
  - rewrite (translate_lang_PyDict _ _ _ _ _ _ Hex). cbv zeta.
    destruct (failed _); [|done]. by intros [= _ <-].
Qed.

Lemma for_each_abort {A} (body : A → M B unit) l1 x l2 e (w w1 w2 : world B) :
  for_each l1 body w = Return tt w1 →
  body x w1 = Raise e w2 →
  for_each (l1 ++ x :: l2) body w = Raise e w2.
Proof.
  revert w. induction l1 as [|y l1 IH]; intros w; simpl.
  - intros [= ->] Hx. unfold bind. by rewrite Hx.
  - unfold bind. destruct (body y w) as [[] wy|]; [|done].
    intros H1 Hx. by apply IH.
Qed.

(** Claim C7.  When a request fails while a language is processed, the
    whole run raises there: the languages after it are not processed, the
    files are those the languages before it left, and so the target file
    of the language in progress is as it was, or still absent. *)
Theorem backend_failure_aborts
    source src c l1 lang l2 ex (w w1 : world B) :
  files w !! source = Some src →
  yaml_load src = PyDict c →
  for_each l1 (translate_lang backend source (PyDict c)) w = Return tt w1 →
  existing_target source lang w1 = PyDict ex →
  failed (run_batch backend lang (MAGIC_WORD_sub <$> (queue ex c).*2)
            (backend_state w1)) = true →
  ∃ w2,
    translate backend source (l1 ++ lang :: l2) w = Raise BackendError w2 ∧
    files w2 = files w1 ∧
    files w2 !! out_path source lang = files w1 !! out_path source lang.
Proof.
  intros Hsrc Hload Hl1 Hex Hfail.
  pose proof (translate_lang_PyDict backend source c lang ex w1 Hex) as Hrun.
  cbv zeta in Hrun. rewrite Hfail in Hrun.
  eexists. split; [|split].
  - unfold translate, bind, open_load. rewrite Hsrc, Hload.
    by eapply for_each_abort.
  - done.
  - done.
Qed.

(** Claim C10, as amended.  When the target file of a language holds the
    null document and the source map has an entry, the membership test on
    the first key raises and the run stops there: no request is sent and
    no file is written for that language. *)
Theorem null_target_aborts
    source src key value c l1 lang l2 doc (w w1 : world B) :
  files w !! source = Some src →
  yaml_load src = PyDict ((key, value) :: c) →
  for_each l1 (translate_lang backend source (PyDict ((key, value) :: c))) w
    = Return tt w1 →
  files w1 !! out_path source lang = Some doc →
  yaml_load doc = PyNone →
  py_in (B := B) key (yaml_load doc) w1 = Raise TypeError w1 ∧
  translate backend source (l1 ++ lang :: l2) w = Raise TypeError w1.
Proof.
  intros Hsrc Hload Hl1 Hdoc Hnull. split; [by rewrite Hnull|].
  unfold translate, bind, open_load. rewrite Hsrc, Hload.
  eapply for_each_abort; [done|].
  rewrite translate_lang_PyNone; [done|].
  unfold existing_target. by rewrite Hdoc.
Qed.

End Language.

(** ** Running the program again *)



Section Rerun.

Context {B : Type} (backend : B → string → string → option string * B).







End Rerun.

(** ** The claims about paths and about the substitution *)

(** Claim C1, as amended.  For a language identifier without a path
    separator, the target path is in the directory of the source file and
    its file name is the language identifier followed by [.yaml], whatever
    the extension of the source file is. *)
Theorem out_path_alongside source lang :
  Str.contains sep lang = false →
  os_path_dirname (out_path source lang) = os_path_dirname source ∧
  os_path_basename (out_path source lang) = lang +:+ ".yaml".
Proof.
  intros Hlang. unfold out_path. cbv zeta.
  apply os_path_join_dirname; [apply os_path_dirname_shape|].
  rewrite contains_app, Hlang. done.
Qed.

Lemma out_path_alongside_witness :
  os_path_dirname (out_path "dir/strings.yml" "fr")
    = os_path_dirname "dir/strings.yml" ∧
  os_path_basename (out_path "dir/strings.yml" "fr") = "fr" +:+ ".yaml".
Proof. apply (out_path_alongside "dir/strings.yml" "fr"). reflexivity. Defined.

(** The example of claim C1 as first stated: the extension of the source
    file is not carried over.  And a language identifier that starts with a
    separator leaves the directory of the source file. *)
Lemma out_path_extension_fixed :
  out_path "dir/strings.yml" "fr" = "dir/fr.yaml" ∧
  out_path "dir/strings.yml" "fr" ≠ "dir/fr.yml" ∧
  os_path_dirname (out_path "dir/strings.yml" "/fr")
    ≠ os_path_dirname "dir/strings.yml".
Proof. split; [reflexivity|]. split; vm_compute; discriminate. Qed.

(** Claim C8.  The normalisation applied before a value is translated,
    [MAGIC_WORD.sub('{}', value)], is idempotent: substituting twice gives
    what substituting once gives, for every string. *)
Theorem normalisation_idempotent (s : string) :
  MAGIC_WORD_sub (MAGIC_WORD_sub s) = MAGIC_WORD_sub s.
Proof. apply sub_sub. Qed.

(** ** The claims on sample runs *)

Ltac by_computation := vm_compute; reflexivity.







Lemma backend_failure_aborts_witness :
  ∃ w2,
    translate limited "dir/strings.yml" ["fr"; "de"; "es"] (world0 3 disk)
      = Raise BackendError w2 ∧
    files w2 = files (outcome_world
      (translate_lang limited "dir/strings.yml" (yaml_load strings_yml) "fr"
         (world0 3 disk))) ∧
    files w2 !! "dir/de.yaml" = None.
Proof.
  destruct (backend_failure_aborts limited "dir/strings.yml" strings_yml
       (entries_of (yaml_load strings_yml)) ["fr"] "de" ["es"] []
       (world0 3 disk)
       (outcome_world
          (translate_lang limited "dir/strings.yml" (yaml_load strings_yml)
             "fr" (world0 3 disk))))
    as (w2 & Hrun & Hfiles & Hde); try by_computation.
  exists w2. split; [exact Hrun|]. split; [exact Hfiles|].
  rewrite Hfiles. by_computation.
Defined.


Lemma null_target_aborts_witness :
  translate echo "s.yaml" ["fr"; "de"]
    (world0 tt [("s.yaml", YMap [("a", "b")]); ("fr.yaml", YNull)])
  = Raise TypeError
      (world0 tt [("s.yaml", YMap [("a", "b")]); ("fr.yaml", YNull)]).
Proof.
  refine (proj2 (null_target_aborts echo "s.yaml" (YMap [("a", "b")])
            "a" "b" [] [] "fr" ["de"] YNull
            (world0 tt [("s.yaml", YMap [("a", "b")]); ("fr.yaml", YNull)])
            (world0 tt [("s.yaml", YMap [("a", "b")]); ("fr.yaml", YNull)])
            _ _ _ _ _)); by_computation.
Defined.

(** Claim C10 as first stated fails for an empty source map: there is no
    key to test, the run completes, and the null document is written
    back. *)
Lemma null_target_empty_source_completes :
  ∃ w',
    translate echo "s.yaml" ["fr"]
      (world0 tt [("s.yaml", YMap []); ("fr.yaml", YNull)]) = Return tt w' ∧
    files w' !! "fr.yaml" = Some YNull.
Proof. eexists. vm_compute. done. Qed.

(** * Further properties of the program *)

(** ** The marker substitution on its own *)

(** [MAGIC_WORD.sub('{}', s)] returns [s] itself exactly when the pattern
    matches nowhere in [s]: a value without two adjacent marker characters
    goes to the translation service as it is written, and any other value
    is changed. *)
Theorem sub_changes_exactly_marker_runs (s : string) :
  MAGIC_WORD_sub s = s ↔ MAGIC_WORD_search s = false.
Proof.
  split; [|apply sub_no_match].
  intros Heq. rewrite <-Heq. apply search_sub.
Qed.

(** After [MAGIC_WORD.sub('{}', s)] the pattern matches nowhere: no two
    marker characters are adjacent in the result, whatever [s] is. *)
Theorem sub_leaves_no_marker_run (s : string) :
  MAGIC_WORD_search (MAGIC_WORD_sub s) = false.
Proof. apply search_sub. Qed.

(** [MAGIC_WORD.sub('{}', s)] never makes a string longer: a run of two
    marker characters gives way to the two characters of the placeholder,
    a longer run shrinks. *)
Theorem sub_never_longer (s : string) :
  String.length (MAGIC_WORD_sub s) ≤ String.length s.
Proof.
  induction s as [s IH] using string_length_ind.
  rewrite MAGIC_WORD_sub_eq.
  destruct (MAGIC_WORD_match s) as [rest|] eqn:E.
  - pose proof (MAGIC_WORD_match_length _ _ E) as Hlt.
    specialize (IH rest Hlt).
    apply match_Some_inv in E as (r & -> & ->).
    pose proof (skip_ats_length r).
    change ("{}" +:+ MAGIC_WORD_sub (skip_ats r))
      with (String "{" (String "}" (MAGIC_WORD_sub (skip_ats r)))).
    simpl. lia.
  - destruct s as [|c r]; [done|]. simpl.
    specialize (IH r). simpl in IH. lia.
Qed.

(** The substitution works piece by piece: when the first piece does not
    end with a marker character, substituting in the whole is substituting
    in each piece. *)
Theorem sub_of_append (s t : string) :
  Str.endswith "@" s = false →
  MAGIC_WORD_sub (s +:+ t) = MAGIC_WORD_sub s +:+ MAGIC_WORD_sub t.
Proof. apply sub_app. Qed.

Lemma sub_of_append_witness :
  MAGIC_WORD_sub ("a@@b" +:+ "@@c") = MAGIC_WORD_sub "a@@b" +:+ MAGIC_WORD_sub "@@c".
Proof. apply (sub_of_append "a@@b" "@@c"). reflexivity. Defined.

(** A marker character that stands alone, as in an address or a handle,
    is not a marker run: it stays where it is and the text on both sides
    is substituted as usual. *)
Theorem sub_keeps_lone_marker (a b : string) :
  Str.endswith "@" a = false →
  Str.startswith "@" b = false →
  MAGIC_WORD_sub (a +:+ "@" +:+ b)
    = MAGIC_WORD_sub a +:+ "@" +:+ MAGIC_WORD_sub b.
Proof. apply sub_single_marker. Qed.

Lemma sub_keeps_lone_marker_witness :
  MAGIC_WORD_sub ("mail bob" +:+ "@" +:+ "host, not @@")
    = MAGIC_WORD_sub "mail bob" +:+ "@" +:+ MAGIC_WORD_sub "host, not @@".
Proof.
  apply (sub_keeps_lone_marker "mail bob" "host, not @@"); reflexivity.
Defined.

(** ** One language: requests, console, errors *)

Section LanguageRuns.

Context {B : Type} (backend : B → string → string → option string * B).

Lemma run_batch_prefix dest texts b :
  sent (run_batch backend dest texts b) `prefix_of` texts.
Proof.
  revert b. induction texts as [|t texts IH]; intros b; simpl; [done|].
  destruct (backend b t dest) as [[a|] b']; simpl.
  - by apply prefix_cons.
  - exists texts. done.
Qed.

Lemma run_batch_failed dest texts b :
  failed (run_batch backend dest texts b) = true →
  length (sent (run_batch backend dest texts b))
    = S (length (answers (run_batch backend dest texts b))).
Proof.
  revert b. induction texts as [|t texts IH]; intros b; simpl; [done|].
  destruct (backend b t dest) as [[a|] b']; simpl; [|done].
  intros Hf. by rewrite IH.
Qed.

Lemma requests_of_queue (dest : string) (q : dict) :
  (λ t : string, (t, dest)) <$> (MAGIC_WORD_sub <$> q.*2)
  = (λ kv : string * string, (MAGIC_WORD_sub kv.2, dest)) <$> q.
Proof. rewrite <-!list_fmap_compose. by apply list_fmap_ext. Qed.

(** When a language completes, the service has received one request for
    each source entry whose key the target lacked, in the order of the
    source map, each made of the marker substitution of the value and of
    the language; it has received nothing else. *)
Theorem requests_on_completion source c lang (w w' : world B) :
  translate_lang backend source (PyDict c) lang w = Return tt w' →
  let q := queue (entries_of (existing_target source lang w)) c in
  calls w' = calls w ++ ((λ kv, (MAGIC_WORD_sub kv.2, lang)) <$> q) ∧
  length (calls w') = length (calls w) + length q.
Proof.
  intros Hrun q.
  destruct (translate_lang_Return _ _ _ _ _ _ Hrun)
    as (out_yaml & Hf & -> & _ & _). fold q in Hf |- *.
  destruct (run_batch_lengths backend _ _ _ Hf) as [_ Hsent].
  cbn [calls]. rewrite Hsent, requests_of_queue.
  split; [done|]. by rewrite length_app, length_fmap.
Qed.

(** Whatever the outcome of a language, the requests it adds are an
    initial part of the requests for the missing keys, in order: there is
    at most one request for a source key, and none for a key the target
    has. *)
Theorem requests_are_a_prefix source contents lang (w : world B) :
  let c := entries_of contents in
  let q := queue (entries_of (existing_target source lang w)) c in
  ∃ requests,
    calls (outcome_world (translate_lang backend source contents lang w))
      = calls w ++ requests ∧
    requests `prefix_of` ((λ kv, (MAGIC_WORD_sub kv.2, lang)) <$> q) ∧
    length requests ≤ length c.
Proof.
  intros c q.
  assert (length q ≤ length c) as Hq by apply length_filter.
  destruct contents as [|c0].
  { rewrite translate_lang_no_contents. exists []. simpl.
    rewrite app_nil_r. split; [done|]. split; [apply prefix_nil|lia]. }
  simpl in c. subst c.
  destruct (existing_target source lang w) as [|ex] eqn:Hex.
  - rewrite (translate_lang_PyNone _ _ _ _ _ Hex). exists [].
    destruct c0; simpl; rewrite app_nil_r;
      (split; [done|]; split; [apply prefix_nil|lia]).
  - rewrite (translate_lang_PyDict _ _ _ _ _ _ Hex). cbv zeta.
    simpl in q. fold q.
    set (r := run_batch backend lang (MAGIC_WORD_sub <$> q.*2) (backend_state w)).
    exists ((λ t, (t, lang)) <$> sent r).
    assert (sent r `prefix_of` MAGIC_WORD_sub <$> q.*2) as Hpre
      by apply run_batch_prefix.
    assert (length (sent r) ≤ length c0) as Hlen.
    { apply prefix_length in Hpre. rewrite !length_fmap in Hpre. lia. }
    split; [by destruct (failed r)|]. split.
    + rewrite <-requests_of_queue. destruct Hpre as [rest ->].
      rewrite fmap_app. by eexists.
    + rewrite length_fmap. lia.
Qed.

(** When a language completes, what it printed is the answers of the
    service as they came, before the marker substitution, one for each
    missing key and in that order, and then the line that names the
    language as complete. *)
Theorem console_on_completion source c lang (w w' : world B) :
  translate_lang backend source (PyDict c) lang w = Return tt w' →
  let q := queue (entries_of (existing_target source lang w)) c in
  let r := run_batch backend lang (MAGIC_WORD_sub <$> q.*2) (backend_state w) in
  stdout w' = stdout w ++ answers r ++ [lang +:+ " complete"] ∧
  length (answers r) = length q.
Proof.
  intros Hrun q r.
  destruct (translate_lang_Return _ _ _ _ _ _ Hrun)
    as (out_yaml & Hf & -> & _ & _). fold q r in Hf |- *.
  destruct (run_batch_lengths backend _ _ _ Hf) as [Hlen _].
  fold q r in Hlen. rewrite !length_fmap in Hlen. done.
Qed.

(** When a request fails, the answers received before it are lost: they
    were printed, the requests for them were sent, but no file is written
    and the line that names the language as complete is not printed. *)
Theorem failed_batch_is_discarded source c lang ex (w : world B) :
  existing_target source lang w = PyDict ex →
  let r := run_batch backend lang (MAGIC_WORD_sub <$> (queue ex c).*2)
             (backend_state w) in
  failed r = true →
  ∃ w',
    translate_lang backend source (PyDict c) lang w = Raise BackendError w' ∧
    files w' = files w ∧
    stdout w' = stdout w ++ answers r ∧
    calls w' = calls w ++ ((λ t, (t, lang)) <$> sent r) ∧
    length (sent r) = S (length (answers r)).
Proof.
  intros Hex r Hf. rewrite (translate_lang_PyDict _ _ _ _ _ _ Hex).
  cbv zeta. fold r. rewrite Hf. eexists. split; [done|].
  repeat split. by apply run_batch_failed.
Qed.





End LanguageRuns.

Lemma requests_on_completion_witness :
  calls (outcome_world
           (translate_lang echo "dir/strings.yml" (yaml_load strings_yml)
              "fr" (world0 tt disk)))
    = [("hi {} there", "fr"); ("who?", "fr")] ∧
  length (calls (outcome_world
           (translate_lang echo "dir/strings.yml" (yaml_load strings_yml)
              "fr" (world0 tt disk)))) = 0 + 2.
Proof.
  apply (requests_on_completion echo "dir/strings.yml"
           (entries_of (yaml_load strings_yml)) "fr" (world0 tt disk)).
  by_computation.
Defined.

Lemma console_on_completion_witness :
  stdout (outcome_world
            (translate_lang counting "dir/strings.yml" (yaml_load strings_yml)
               "fr" (world0 0 disk)))
    = [] ++ ["A:hi {} there"; "B:who?"] ++ ["fr" +:+ " complete"] ∧
  length ["A:hi {} there"; "B:who?"] = 2.
Proof.
  apply (console_on_completion counting "dir/strings.yml"
           (entries_of (yaml_load strings_yml)) "fr" (world0 0 disk)).
  by_computation.
Defined.

Lemma failed_batch_is_discarded_witness :
  ∃ w',
    translate_lang limited "dir/strings.yml" (yaml_load strings_yml) "fr"
      (world0 1 disk) = Raise BackendError w' ∧
    files w' = files (world0 1 disk) ∧
    stdout w' = [] ++ ["hi {} there"] ∧
    calls w' = [] ++ [("hi {} there", "fr"); ("who?", "fr")] ∧
    2 = S 1.
Proof.
  apply (failed_batch_is_discarded limited "dir/strings.yml"
           (entries_of (yaml_load strings_yml)) "fr" [("bye", "au revoir")]
           (world0 1 disk)); by_computation.
Defined.





(** ** The whole run: files, paths, languages in sequence *)

Lemma str_app_inj_r (s1 s2 t : string) : s1 +:+ t = s2 +:+ t → s1 = s2.
Proof.
  revert s2. induction s1 as [|c s1 IH]; intros [|c2 s2] Heq.
  - done.
  - apply (f_equal String.length) in Heq.
    rewrite !str_length_app in Heq. simpl in Heq. lia.
  - apply (f_equal String.length) in Heq.
    rewrite !str_length_app in Heq. simpl in Heq. lia.
  - rewrite !str_app_cons in Heq. injection Heq as -> Heq.
    f_equal. by apply IH.
Qed.

Lemma out_path_basename source lang :
  Str.contains sep lang = false →
  os_path_basename (out_path source lang) = lang +:+ ".yaml".
Proof.
  intros Hlang. unfold out_path. cbv zeta.
  apply os_path_join_dirname; [apply os_path_dirname_shape|].
  rewrite contains_app, Hlang. done.
Qed.

(** Two languages never share a target file: for language identifiers
    without a path separator, different languages have different target
    paths. *)
Theorem languages_have_their_own_file source lang1 lang2 :
  Str.contains sep lang1 = false →
  Str.contains sep lang2 = false →
  lang1 ≠ lang2 →
  out_path source lang1 ≠ out_path source lang2.
Proof.
  intros H1 H2 Hne Heq. apply Hne.
  apply (f_equal os_path_basename) in Heq.
  rewrite !out_path_basename in Heq by done.
  by apply str_app_inj_r in Heq.
Qed.

Lemma languages_have_their_own_file_witness :
  out_path "dir/strings.yml" "fr" ≠ out_path "dir/strings.yml" "de".
Proof.
  apply (languages_have_their_own_file "dir/strings.yml" "fr" "de");
    [reflexivity|reflexivity|discriminate].
Defined.

Section Runs.

Context {B : Type} (backend : B → string → string → option string * B).

Lemma translate_lang_frame source contents lang p (w : world B) :
  p ≠ out_path source lang →
  files (outcome_world (translate_lang backend source contents lang w)) !! p
    = files w !! p.
Proof.
  intros Hp.
  destruct (translate_lang backend source contents lang w) as [[] w'|e w']
    eqn:Hrun; simpl.
  - destruct contents as [|c];
      [by rewrite translate_lang_no_contents in Hrun|].
    destruct (translate_lang_Return _ _ _ _ _ _ Hrun) as (o & _ & -> & _).
    simpl. by rewrite lookup_insert_ne.
  - by rewrite (translate_lang_Raise _ _ _ _ _ _ _ Hrun).
Qed.

Lemma for_each_frame source contents langs p (w : world B) :
  (∀ lang, lang ∈ langs → p ≠ out_path source lang) →
  files (outcome_world
           (for_each langs (translate_lang backend source contents) w)) !! p
    = files w !! p.
Proof.
  revert w. induction langs as [|lang langs IH]; intros w Hp; [done|].
  simpl. unfold bind.
  pose proof (translate_lang_frame source contents lang p w) as Hframe.
  destruct (translate_lang backend source contents lang w) as [[] w'|e w'];
    simpl in Hframe.
  - rewrite IH, Hframe; [done|apply Hp, elem_of_cons; by left|].
    intros l Hl. apply Hp, elem_of_cons. by right.
  - simpl. apply Hframe, Hp, elem_of_cons. by left.
Qed.


(** The source file is left as it is by a run none of whose languages is
    the name of the source file: its file name is not [<lang>.yaml] for a
    language of the run. *)
Theorem source_file_is_kept source langs (w : world B) :
  (∀ lang, lang ∈ langs →
     Str.contains sep lang = false ∧
     os_path_basename source ≠ lang +:+ ".yaml") →
  files (outcome_world (translate backend source langs w)) !! source
    = files w !! source.
Proof.
  intros Hlangs. unfold translate, bind, open_load.
  destruct (files w !! source) as [src|] eqn:Hsrc; [|done].
  rewrite <-Hsrc. apply for_each_frame.
  intros lang Hlang Heq. destruct (Hlangs lang Hlang) as [Hsep Hne].
  apply Hne. rewrite Heq at 1. by apply out_path_basename.
Qed.



(** A source file that holds the null document stops the run at its first
    language with [AttributeError], whatever the target files hold: no
    request is sent and no file is written. *)
Theorem null_source_stops_the_run source src lang langs (w : world B) :
  files w !! source = Some src →
  yaml_load src = PyNone →
  translate backend source (lang :: langs) w = Raise AttributeError w.
Proof.
  intros Hsrc Hnull. unfold translate, bind, open_load.
  rewrite Hsrc, Hnull. simpl. unfold bind.
  by rewrite translate_lang_no_contents.
Qed.

End Runs.


Lemma source_file_is_kept_witness :
  files (outcome_world
           (translate echo "dir/strings.yml" ["fr"; "de"] (world0 tt disk)))
    !! "dir/strings.yml"
  = files (world0 tt disk) !! "dir/strings.yml".
Proof.
  apply (source_file_is_kept echo "dir/strings.yml" ["fr"; "de"]
           (world0 tt disk)).
  intros lang Hlang.
  apply elem_of_cons in Hlang as [->|Hlang];
    [split; [reflexivity|vm_compute; discriminate]|].
  apply elem_of_cons in Hlang as [->|Hlang];
    [split; [reflexivity|vm_compute; discriminate]|].
  by apply elem_of_nil in Hlang.
Defined.


Lemma null_source_stops_the_run_witness :
  translate echo "s.yaml" ["fr"; "de"]
    (world0 tt [("s.yaml", YNull); ("fr.yaml", fr_yaml)])
  = Raise AttributeError (world0 tt [("s.yaml", YNull); ("fr.yaml", fr_yaml)]).
Proof.
  apply (null_source_stops_the_run echo "s.yaml" YNull "fr" ["de"]
           (world0 tt [("s.yaml", YNull); ("fr.yaml", fr_yaml)]));
    reflexivity.
Defined.

(** ** The whole run: what the files hold afterwards *)

Section RunResults.

Context {B : Type} (backend : B → string → string → option string * B).





End RunResults.


